(** * ExpressRelayIcon: the decorative icon component of the documentation site

    Source: [src/components/icons/ExpressRelayIcon.tsx].

    The component is a zero-parameter arrow function whose body is a single
    [return] of a JSX literal: an [svg] element with five string attributes
    and one [path] child carrying a [d] and a [fill] attribute.

    The development has three layers:
    - [Jsx]: the element tree a JSX literal evaluates to, with attribute
      lookup and child selection;
    - [Js]: values, completions and a small state-and-exception monad in which
      a call of the component is run;
    - [PathData]: a lexer and parser for the SVG path mini-language, used to
      state what the [d] attribute draws.

    The same source file carries the entropy best-practices page, whose two
    Solidity functions, [mapRandomNumber] and [generateAttributes], are
    embedded in [Solidity]. *)

From Stdlib Require Import String Ascii List Bool Arith ZArith QArith Lia.
Import ListNotations.

Set Warnings "-register-all".
Open Scope string_scope.

(** ** JSX element trees *)

Module Jsx.

(** An attribute list keeps the order in which the JSX literal writes
    the attributes. *)
Definition Props := list (string * string).

(** A host element: tag name, attributes, children.  Whitespace between
    tags that contains a line break is dropped by JSX, so it gives no
    child. *)
Inductive Element : Type :=
| El (tag : string) (props : Props) (children : list Element).

Definition tag (e : Element) : string :=
  match e with El t _ _ => t end.

Definition props (e : Element) : Props :=
  match e with El _ p _ => p end.

Definition children (e : Element) : list Element :=
  match e with El _ _ c => c end.

(** First binding of an attribute name, as a property read would give. *)
Fixpoint lookup (name : string) (p : Props) : option string :=
  match p with
  | [] => None
  | (k, v) :: rest => if String.eqb k name then Some v else lookup name rest
  end.

Definition attr (name : string) (e : Element) : option string :=
  lookup name (props e).

Definition has_attr (name : string) (e : Element) : bool :=
  match attr name e with Some _ => true | None => false end.

Definition is_tag (t : string) (e : Element) : bool :=
  String.eqb (tag e) t.

(** The children of [e] with a given tag. *)
Definition children_tagged (t : string) (e : Element) : list Element :=
  filter (is_tag t) (children e).

(** Whether [e] carries the attribute [name] with exactly the value [v]. *)
Definition attr_is (name v : string) (e : Element) : bool :=
  match attr name e with
  | Some v' => String.eqb v' v
  | None => false
  end.

(** Every element of the tree rooted at [e], parent first. *)
Fixpoint flatten (e : Element) : list Element :=
  match e with
  | El _ _ cs => e :: flat_map flatten cs
  end.

End Jsx.

(** ** The component *)

Module Icon.
Import Jsx.

(** The literal of the [d] attribute (line 11 of the source). *)
Definition path_d : string :=
  "M24 0C10.75 0 0 10.75 0 24C0 29.68 1.98 34.9 5.28 39.01L11.82 32.47L12.85 31.44L15.95 28.34L19.67 32.06L16.57 35.16L15.54 36.19L9 42.73C13.11 46.03 18.33 48.01 24.01 48.01C37.26 48.01 48.01 37.26 48.01 24.01C48.01 10.76 37.25 0 24 0ZM12.54 23.07C11.68 23.93 10.3 23.93 9.44 23.07C8.58 22.21 8.58 20.83 9.44 19.97L19.97 9.44C20.83 8.58 22.21 8.58 23.07 9.44C23.93 10.3 23.93 11.68 23.07 12.54L12.54 23.07ZM24 33.91L14.09 24L24 14.09L33.91 24L24 33.91ZM38.56 28.03L28.03 38.56C27.17 39.42 25.79 39.42 24.93 38.56C24.07 37.7 24.07 36.32 24.93 35.46L35.46 24.93C36.32 24.07 37.7 24.07 38.56 24.93C39.42 25.79 39.42 27.17 38.56 28.03Z".

(** [<path d=... fill="#E6DAFE" />] (lines 10-13). *)
Definition path_element : Element :=
  El "path" [("d", path_d); ("fill", "#E6DAFE")] [].

(** [<svg width="48" height="48" viewBox="0 0 48 48" fill="none"
    xmlns="http://www.w3.org/2000/svg"> ... </svg>] (lines 3-14). *)
Definition svg_element : Element :=
  El "svg"
     [("width", "48");
      ("height", "48");
      ("viewBox", "0 0 48 48");
      ("fill", "none");
      ("xmlns", "http://www.w3.org/2000/svg")]
     [path_element].

End Icon.

(** ** Values, completions and calls *)

Module Js.

(** The values a call can receive or give back.  An object is its list of
    own properties. *)
Inductive Value : Type :=
| VUndefined
| VNull
| VBool (b : bool)
| VString (s : string)
| VObject (fields : list (string * Value))
| VElement (e : Jsx.Element).

(** How the evaluation of a function body ends. *)
Inductive Completion (A : Type) : Type :=
| Return (a : A)
| Throw (v : Value).
Arguments Return {A} a.
Arguments Throw {A} v.

(** A computation over a store of type [W]: everything outside the
    function that a body could read or write (module variables, hook
    state, the document, the network). *)
Definition Exec (W A : Type) : Type := W -> Completion A * W.

Definition ret {W A} (a : A) : Exec W A :=
  fun w => (Return a, w).

Definition throw {W A} (v : Value) : Exec W A :=
  fun w => (Throw v, w).

Definition bind {W A B} (m : Exec W A) (k : A -> Exec W B) : Exec W B :=
  fun w =>
    match m w with
    | (Return a, w') => k a w'
    | (Throw v, w') => (Throw v, w')
    end.

Definition run {W A} (m : Exec W A) (w : W) : Completion A * W := m w.

Definition is_nullish (v : Value) : bool :=
  match v with
  | VUndefined | VNull => true
  | _ => false
  end.

Definition as_element (v : Value) : option Jsx.Element :=
  match v with
  | VElement e => Some e
  | _ => None
  end.

End Js.

Declare Scope exec_scope.
Delimit Scope exec_scope with exec.
Notation "x <- m ;; k" := (Js.bind m (fun x => k))
  (at level 61, m at next level, right associativity) : exec_scope.

Module Component.
Import Jsx Js Icon.

Section Calls.
Context {W : Type}.

(** [const ExpressRelayIcon = () => { return ( <svg ...> ... </svg> ); }]

    The arrow function declares no parameter, so whatever arguments a
    caller passes are never bound.  The body is one [return] of the JSX
    literal; nothing is read from or written to the store. *)
Definition ExpressRelayIcon (args : list Value) : Exec W Value :=
  ret (VElement svg_element).

(** A caller that invokes the component once per argument list, in the
    order given, and collects what each call returned. *)
Fixpoint call_each (calls : list (list Value)) : Exec W (list Value) :=
  match calls with
  | [] => ret []
  | args :: rest =>
      (v <- ExpressRelayIcon args ;;
       vs <- call_each rest ;;
       ret (v :: vs))%exec
  end.

(** Two calls in sequence; the second runs in the store the first left. *)
Definition call_twice (args1 args2 : list Value) : Exec W (Value * Value) :=
  (v1 <- ExpressRelayIcon args1 ;;
   v2 <- ExpressRelayIcon args2 ;;
   ret (v1, v2))%exec.

End Calls.

(** The [d] attribute of the first [path] child of a returned value. *)
Definition path_data_of (v : Value) : option string :=
  match as_element v with
  | Some e =>
      match children_tagged "path" e with
      | p :: _ => attr "d" p
      | [] => None
      end
  | None => None
  end.

End Component.

(** ** SVG path data

    The [d] attribute is written in the path mini-language of SVG: command
    letters followed by numbers.  The lexer and the parser below follow the
    grammar of that language (decimal numbers without exponent), so that
    what the literal draws can be stated on commands and coordinates
    rather than on characters. *)

Module PathData.

Inductive Token : Type :=
| TCmd (c : ascii)
| TNum (q : Q).

(** A number being read: sign, the digits read so far as one integer, the
    power of ten that places the fraction point, whether the point was
    seen, whether any digit was seen. *)
Record Acc : Type := mkAcc {
  neg : bool;
  mant : Z;
  den : positive;
  dotted : bool;
  seen : bool
}.

Definition fresh (negative : bool) : Acc := mkAcc negative 0 1 false false.

Definition value (a : Acc) : Q :=
  Qmake (if neg a then Z.opp (mant a) else mant a) (den a).

Definition is_digit (c : ascii) : bool :=
  let n := nat_of_ascii c in (48 <=? n)%nat && (n <=? 57)%nat.

Definition digit_value (c : ascii) : Z :=
  Z.of_nat (nat_of_ascii c - 48).

Definition is_alpha (c : ascii) : bool :=
  let n := nat_of_ascii c in
  ((65 <=? n)%nat && (n <=? 90)%nat) || ((97 <=? n)%nat && (n <=? 122)%nat).

(** Space, tab, line feed, form feed, carriage return, and the comma. *)
Definition is_separator (c : ascii) : bool :=
  let n := nat_of_ascii c in
  (n =? 32)%nat || (n =? 9)%nat || (n =? 10)%nat || (n =? 12)%nat
  || (n =? 13)%nat || (n =? 44)%nat.

Definition is_dot (c : ascii) : bool := (nat_of_ascii c =? 46)%nat.
Definition is_minus (c : ascii) : bool := (nat_of_ascii c =? 45)%nat.
Definition is_plus (c : ascii) : bool := (nat_of_ascii c =? 43)%nat.

Definition push_digit (c : ascii) (a : Acc) : Acc :=
  mkAcc (neg a)
        (10 * mant a + digit_value c)
        (if dotted a then (10 * den a)%positive else den a)
        (dotted a)
        true.

Definition set_dot (a : Acc) : Acc :=
  mkAcc (neg a) (mant a) (den a) true (seen a).

(** Ends the number being read, if any.  A sign or a point with no digit is
    not a number. *)
Definition flush (cur : option Acc) : option (list Token) :=
  match cur with
  | None => Some []
  | Some a => if seen a then Some [TNum (value a)] else None
  end.

Definition prepend (front back : option (list Token)) : option (list Token) :=
  match front, back with
  | Some f, Some b => Some (f ++ b)%list
  | _, _ => None
  end.

Fixpoint lex_from (s : string) (cur : option Acc) : option (list Token) :=
  match s with
  | EmptyString => flush cur
  | String c rest =>
      if is_digit c then
        lex_from rest (Some (push_digit c (match cur with Some a => a | None => fresh false end)))
      else if is_dot c then
        match cur with
        | Some a =>
            if dotted a
            then prepend (flush cur) (lex_from rest (Some (set_dot (fresh false))))
            else lex_from rest (Some (set_dot a))
        | None => lex_from rest (Some (set_dot (fresh false)))
        end
      else if is_minus c || is_plus c then
        prepend (flush cur) (lex_from rest (Some (fresh (is_minus c))))
      else if is_separator c then
        prepend (flush cur) (lex_from rest None)
      else if is_alpha c then
        prepend (flush cur) (prepend (Some [TCmd c]) (lex_from rest None))
      else None
  end.

Definition lex (s : string) : option (list Token) := lex_from s None.

(** A list of numbers and nothing else, as in a [viewBox] or a length. *)
Fixpoint only_numbers (ts : list Token) : option (list Q) :=
  match ts with
  | [] => Some []
  | TNum q :: rest => option_map (cons q) (only_numbers rest)
  | TCmd _ :: _ => None
  end.

Definition numbers (s : string) : option (list Q) :=
  match lex s with
  | Some ts => only_numbers ts
  | None => None
  end.

(** The command letters of a string, in order. *)
Fixpoint letters (s : string) : list ascii :=
  match s with
  | EmptyString => []
  | String c rest => if is_alpha c then c :: letters rest else letters rest
  end.

(** *** Commands *)

Record Command : Type := mkCommand {
  letter : ascii;
  operands : list Q
}.

(** Number of operands of one instance of each command: upper case is
    absolute, lower case relative. *)
Definition arity (c : ascii) : option nat :=
  match c with
  | "M" | "m" | "L" | "l" | "T" | "t" => Some 2
  | "H" | "h" | "V" | "v" => Some 1
  | "C" | "c" => Some 6
  | "S" | "s" | "Q" | "q" => Some 4
  | "A" | "a" => Some 7
  | "Z" | "z" => Some 0
  | _ => None
  end%char%nat.

(** Operands that follow a complete instance start another one of the same
    command, except after a move, where they are line-to operands. *)
Definition repeated (c : ascii) : ascii :=
  match c with
  | "M" => "L"
  | "m" => "l"
  | _ => c
  end%char.

(** The command being read: its letter, its arity, the operands read so
    far, and whether an instance of it is already complete. *)
Record Pending : Type := mkPending {
  p_letter : ascii;
  p_arity : nat;
  p_operands : list Q;
  p_complete : bool
}.

Definition finish (cur : option Pending) : bool :=
  match cur with
  | None => true
  | Some p =>
      match p_operands p with
      | [] => p_complete p
      | _ :: _ => false
      end
  end.

Fixpoint parse_from (ts : list Token) (cur : option Pending) : option (list Command) :=
  match ts with
  | [] => if finish cur then Some [] else None
  | TCmd c :: rest =>
      if finish cur then
        match arity c with
        | None => None
        | Some O => option_map (cons (mkCommand c [])) (parse_from rest None)
        | Some (S n) => parse_from rest (Some (mkPending c (S n) [] false))
        end
      else None
  | TNum q :: rest =>
      match cur with
      | None => None
      | Some p =>
          let ops := (p_operands p ++ [q])%list in
          if (List.length ops =? p_arity p)%nat then
            option_map (cons (mkCommand (p_letter p) ops))
                       (parse_from rest
                          (Some (mkPending (repeated (p_letter p)) (p_arity p) [] true)))
          else
            parse_from rest
              (Some (mkPending (p_letter p) (p_arity p) ops (p_complete p)))
      end
  end.

Definition is_move (c : Command) : bool :=
  (Ascii.eqb (letter c) "M" || Ascii.eqb (letter c) "m")%char.

Definition is_line (c : Command) : bool :=
  (Ascii.eqb (letter c) "L" || Ascii.eqb (letter c) "l")%char.

Definition is_cubic (c : Command) : bool :=
  (Ascii.eqb (letter c) "C" || Ascii.eqb (letter c) "c")%char.

Definition is_close (c : Command) : bool :=
  (Ascii.eqb (letter c) "Z" || Ascii.eqb (letter c) "z")%char.

(** Upper-case commands take absolute coordinates. *)
Definition is_absolute (c : Command) : bool :=
  let n := nat_of_ascii (letter c) in (65 <=? n)%nat && (n <=? 90)%nat.

(** Path data is empty or begins with a move. *)
Definition parse (s : string) : option (list Command) :=
  match lex s with
  | None => None
  | Some ts =>
      match parse_from ts None with
      | Some (c :: cs) => if is_move c then Some (c :: cs) else None
      | other => other
      end
  end.

Definition starts_with_move (cs : list Command) : bool :=
  match cs with
  | c :: _ => is_move c
  | [] => false
  end.

(** A subpath ends at a close-path, before the next move, or with the
    data. *)
Fixpoint subpaths (cs : list Command) : list (list Command) :=
  match cs with
  | [] => []
  | c :: rest =>
      match subpaths rest with
      | g :: gs =>
          if is_close c || starts_with_move rest
          then [c] :: g :: gs
          else (c :: g) :: gs
      | [] => [[c]]
      end
  end.

Definition first_letter (g : list Command) : option ascii :=
  match g with
  | c :: _ => Some (letter c)
  | [] => None
  end.

Definition last_letter (g : list Command) : option ascii :=
  first_letter (rev g).

Definition is_closed (g : list Command) : bool :=
  match rev g with
  | c :: _ => is_close c
  | [] => false
  end.

(** Move, line or cubic curve, absolute or relative. *)
Definition is_drawing (c : Command) : bool :=
  is_move c || is_line c || is_cubic c.

(** With move, line and cubic commands every operand is a coordinate. *)
Definition coordinates (cs : list Command) : list Q :=
  flat_map operands cs.

Definition within (lo hi q : Q) : bool :=
  Qle_bool lo q && Qle_bool q hi.

(** The [viewBox] attribute: min-x, min-y, width, height. *)
Record ViewBox : Type := mkViewBox {
  min_x : Q;
  min_y : Q;
  vb_width : Q;
  vb_height : Q
}.

Definition parse_view_box (s : string) : option ViewBox :=
  match numbers s with
  | Some [x; y; w; h] => Some (mkViewBox x y w h)
  | _ => None
  end.

Definition max_x (v : ViewBox) : Q := min_x v + vb_width v.
Definition max_y (v : ViewBox) : Q := min_y v + vb_height v.

(** A length attribute that is a single plain number. *)
Definition parse_number (s : string) : option Q :=
  match numbers s with
  | Some [q] => Some q
  | _ => None
  end.

End PathData.

(** ** What the icon draws *)

Module Drawing.
Import Jsx Icon PathData.

(** The commands of the [d] literal ([[]] if it were not path data). *)
Definition commands : list Command :=
  match parse path_d with
  | Some cs => cs
  | None => []
  end.

(** The numeric reading of an attribute of an element. *)
Definition number_attr (name : string) (e : Element) : option Q :=
  match attr name e with
  | Some s => parse_number s
  | None => None
  end.

Definition view_box_of (e : Element) : option ViewBox :=
  match attr "viewBox" e with
  | Some s => parse_view_box s
  | None => None
  end.

Definition allowed_letters : list ascii := ["M"; "L"; "C"; "Z"]%char.

Definition is_allowed (c : ascii) : bool :=
  existsb (Ascii.eqb c) allowed_letters.

End Drawing.

(** ** The Solidity functions of the entropy best-practices page

    Source: the two [solidity] blocks of the best-practices page kept in
    [src/components/icons/ExpressRelayIcon.tsx] (lines 42-50 and 66-97).

    Integers are [Z] with the range of their type written out.  The page
    does not fix a compiler version, so the arithmetic mode is a parameter:
    from Solidity 0.8.0 on, [+] and [-] revert when the result leaves the
    type; before, they wrap around.  Explicit conversions between [int256],
    [uint256] and [bytes32] keep the 256 bits in both modes, and [%] by zero
    fails in both. *)

Module Solidity.

Inductive Arithmetic : Type :=
| Checked
| Wrapping.

Inductive Panic : Type :=
| Overflow
| DivisionByZero.

Inductive Outcome (A : Type) : Type :=
| Ok (a : A)
| Revert (p : Panic).
Arguments Ok {A} a.
Arguments Revert {A} p.

Definition and_then {A B} (m : Outcome A) (k : A -> Outcome B) : Outcome B :=
  match m with
  | Ok a => k a
  | Revert p => Revert p
  end.

Definition int256_min : Z := (- 2 ^ 255)%Z.
Definition int256_max : Z := (2 ^ 255 - 1)%Z.
Definition uint256_modulus : Z := (2 ^ 256)%Z.

Definition fits_int256 (z : Z) : bool :=
  ((int256_min <=? z) && (z <=? int256_max))%Z.

(** The [int256] with the same low 256 bits as [z]. *)
Definition wrap_int256 (z : Z) : Z :=
  ((z - int256_min) mod uint256_modulus + int256_min)%Z.

(** The result of a signed operation whose exact value is [z]. *)
Definition int256_result (mode : Arithmetic) (z : Z) : Outcome Z :=
  if fits_int256 z then Ok z
  else
    match mode with
    | Checked => Revert Overflow
    | Wrapping => Ok (wrap_int256 z)
    end.

Definition int256_add (mode : Arithmetic) (a b : Z) : Outcome Z :=
  int256_result mode (a + b).

Definition int256_sub (mode : Arithmetic) (a b : Z) : Outcome Z :=
  int256_result mode (a - b).

Definition uint256_mod (a b : Z) : Outcome Z :=
  if (b =? 0)%Z then Revert DivisionByZero else Ok (a mod b)%Z.

(** [uint256(x)] for [x : int256]. *)
Definition uint256_of_int256 (x : Z) : Z := (x mod uint256_modulus)%Z.

(** [int256(u)] for [u : uint256]. *)
Definition int256_of_uint256 (u : Z) : Z := wrap_int256 u.

(** A [bytes32] is its 32 bytes, first byte first. *)
Definition bytes32 : Type := list Byte.byte.

Definition well_formed (b : bytes32) : Prop := List.length b = 32%nat.

(** [uint256(b)] for [b : bytes32]: the bytes as one big-endian number. *)
Definition uint256_of_bytes32 (b : bytes32) : Z :=
  fold_left (fun acc x => (acc * 256 + Z.of_N (Byte.to_N x))%Z) b 0%Z.

Definition byte_of_Z (z : Z) : Byte.byte :=
  match Byte.of_N (Z.to_N z) with
  | Some x => x
  | None => Byte.x00
  end.

(** The [n] low bytes of [z], most significant first. *)
Fixpoint big_endian (n : nat) (z : Z) : list Byte.byte :=
  match n with
  | O => []
  | S n' => (big_endian n' (z / 256) ++ [byte_of_Z (z mod 256)])%list
  end.

(** [bytes32(u)] for [u : uint256]. *)
Definition bytes32_of_uint256 (u : Z) : bytes32 := big_endian 32 u.

(** [abi.encodePacked(b, s)] for a [bytes32] and a string literal: the 32
    bytes followed by the bytes of the string, with no padding and no
    length. *)
Definition abi_encodePacked (b : bytes32) (s : string) : list Byte.byte :=
  (b ++ list_byte_of_string s)%list.

(** Bounds of a range that [mapRandomNumber] can serve: both ends are
    [int256] values, in order, and the number of values in the range is
    itself an [int256]. *)
Definition valid_range (minRange maxRange : Z) : Prop :=
  (int256_min <= minRange /\ minRange <= maxRange /\ maxRange <= int256_max /\
   maxRange - minRange < int256_max)%Z.

Declare Scope sol_scope.
Delimit Scope sol_scope with sol.
Notation "x <- m ;; k" := (and_then m (fun x => k))
  (at level 61, m at next level, right associativity) : sol_scope.

(** [[
function mapRandomNumber(bytes32 randomNumber, int256 minRange, int256 maxRange)
    internal returns (int256) {
  uint256 range = uint256(maxRange - minRange + 1);
  return minRange + int256(uint256(randomNumber) % range);
}
]] *)
Definition mapRandomNumber (mode : Arithmetic)
    (randomNumber : bytes32) (minRange maxRange : Z) : Outcome Z :=
  (width <- int256_sub mode maxRange minRange ;;
   count <- int256_add mode width 1 ;;
   let range := uint256_of_int256 count in
   offset <- uint256_mod (uint256_of_bytes32 randomNumber) range ;;
   int256_add mode minRange (int256_of_uint256 offset))%sol.

(** The six locals of [generateAttributes]. *)
Record Attributes : Type := mkAttributes {
  strength : Z;
  stamina : Z;
  agility : Z;
  stealth : Z;
  positionX : Z;
  positionY : Z
}.

Section GenerateAttributes.
Variable mode : Arithmetic.

(** The built-in hash; only its type is used. *)
Variable keccak256 : list Byte.byte -> bytes32.

(** [generateAttributes(bytes32 randomNumber)], lines 66-97.  The Solidity
    function returns nothing; the outcome here carries the six locals as
    they stand at the closing brace, or the panic that stopped the body
    before it. *)
Definition generateAttributes (randomNumber : bytes32) : Outcome Attributes :=
  (strength <- mapRandomNumber mode
       (keccak256 (abi_encodePacked randomNumber "strength")) 15 20 ;;
   stamina <- mapRandomNumber mode
       (keccak256 (abi_encodePacked randomNumber "stamina")) 10 15 ;;
   agility <- mapRandomNumber mode
       (keccak256 (abi_encodePacked randomNumber "agility")) 5 15 ;;
   stealth <- mapRandomNumber mode
       (keccak256 (abi_encodePacked randomNumber "stealth")) 0 5 ;;
   positionX <- mapRandomNumber mode
       (keccak256 (abi_encodePacked randomNumber "positionX")) (-100) 100 ;;
   positionY <- mapRandomNumber mode
       (keccak256 (abi_encodePacked randomNumber "positionY")) (-100) 100 ;;
   Ok (mkAttributes strength stamina agility stealth positionX positionY))%sol.

End GenerateAttributes.

(** A hash function given by a finite table: the entry of the first key
    equal to the input, and 32 zero bytes for an input with no entry.  It
    stands for [keccak256] where a property is stated for a hash with
    chosen values at chosen inputs. *)
Definition table_hash (table : list (list Byte.byte * bytes32))
    (x : list Byte.byte) : bytes32 :=
  match
    find (fun entry =>
            if list_eq_dec Byte.byte_eq_dec x (fst entry) then true else false)
         table
  with
  | Some entry => snd entry
  | None => bytes32_of_uint256 0
  end.

(** The string literals that [generateAttributes] packs with the random
    word, in the order of the six calls. *)
Definition attribute_labels : list string :=
  ["strength"; "stamina"; "agility"; "stealth"; "positionX"; "positionY"].

End Solidity.

(** * Properties *)

(** ** The monad *)

Module ExecFacts.
Import Js.

Lemma run_ret {W A} (a : A) (w : W) : run (ret a) w = (Return a, w).
Proof. reflexivity. Qed.

Lemma run_bind_return {W A B} (m : Exec W A) (k : A -> Exec W B) (w w' : W) (a : A) :
  run m w = (Return a, w') -> run (bind m k) w = run (k a) w'.
Proof.
  unfold run, bind. intros Hm. rewrite Hm. reflexivity.
Qed.

Lemma run_bind_throw {W A B} (m : Exec W A) (k : A -> Exec W B) (w w' : W) (v : Value) :
  run m w = (Throw v, w') -> run (bind m k) w = (Throw v, w').
Proof.
  unfold run, bind. intros Hm. rewrite Hm. reflexivity.
Qed.

End ExecFacts.

(** ** The element tree *)

Module JsxFacts.
Import Jsx.

Lemma lookup_head name v rest : lookup name ((name, v) :: rest) = Some v.
Proof. simpl. rewrite String.eqb_refl. reflexivity. Qed.

Lemma lookup_skip name k v rest :
  k <> name -> lookup name ((k, v) :: rest) = lookup name rest.
Proof.
  intros Hne. simpl. destruct (String.eqb_spec k name) as [Heq | _].
  - contradiction.
  - reflexivity.
Qed.

Lemma has_attr_false_iff name e : has_attr name e = false <-> attr name e = None.
Proof.
  unfold has_attr. destruct (attr name e); split; intros H; congruence.
Qed.

Lemma attr_is_true_iff name v e : attr_is name v e = true <-> attr name e = Some v.
Proof.
  unfold attr_is. destruct (attr name e) as [v' |].
  - split; intros H.
    + apply String.eqb_eq in H. congruence.
    + injection H as ->. apply String.eqb_refl.
  - split; intros H; discriminate.
Qed.

End JsxFacts.

(** ** Calls of the component *)

Module ComponentFacts.
Import Jsx Js Icon Component ExecFacts.

(** Every call returns the [svg] literal and leaves the store as it was. *)
Lemma ExpressRelayIcon_run {W} (args : list Value) (w : W) :
  run (ExpressRelayIcon args) w = (Return (VElement svg_element), w).
Proof. unfold ExpressRelayIcon. apply run_ret. Qed.

Lemma call_each_cons_run {W} (args : list Value) (rest : list (list Value))
      (w : W) (vs : list Value) :
  run (call_each rest) w = (Return vs, w) ->
  run (call_each (args :: rest)) w = (Return (VElement svg_element :: vs), w).
Proof.
  intros Hrest. cbn [call_each].
  rewrite (run_bind_return _ _ w w (VElement svg_element)) by apply ExpressRelayIcon_run.
  rewrite (run_bind_return _ _ w w vs) by exact Hrest.
  apply run_ret.
Qed.

(** C1.  Called with no arguments, the component returns an element whose
    root is an [svg] with [viewBox] "0 0 48 48", [width] 48 and [height] 48,
    as attribute text and as numbers. *)
Theorem render_viewport :
  forall (W : Type) (w : W),
  exists e : Element,
    fst (run (ExpressRelayIcon []) w) = Return (VElement e) /\
    tag e = "svg" /\
    attr "viewBox" e = Some "0 0 48 48" /\
    attr "width" e = Some "48" /\
    attr "height" e = Some "48" /\
    Drawing.view_box_of e = Some (PathData.mkViewBox 0 0 48 48) /\
    Drawing.number_attr "width" e = Some 48%Q /\
    Drawing.number_attr "height" e = Some 48%Q.
Proof.
  intros W w. exists svg_element.
  rewrite ExpressRelayIcon_run.
  repeat split.
Qed.

(** C2.  On every call the returned element has exactly one child, that
    child is a [path], its [fill] is "#E6DAFE", and it has no [stroke]
    attribute. *)
Theorem render_single_path :
  forall (W : Type) (w : W) (args : list Value),
  exists e p : Element,
    fst (run (ExpressRelayIcon args) w) = Return (VElement e) /\
    children e = [p] /\
    children_tagged "path" e = [p] /\
    tag p = "path" /\
    attr "fill" p = Some "#E6DAFE" /\
    has_attr "stroke" p = false /\
    children p = [].
Proof.
  intros W w args. exists svg_element, path_element.
  rewrite ExpressRelayIcon_run. cbn [fst].
  split; [reflexivity |].
  split; [reflexivity |].
  split; [reflexivity |].
  split; [reflexivity |].
  split.
  - unfold attr, path_element, props.
    rewrite JsxFacts.lookup_skip by discriminate.
    apply JsxFacts.lookup_head.
  - split; [| reflexivity].
    apply JsxFacts.has_attr_false_iff. reflexivity.
Qed.

(** C8.  The root [svg] carries [fill="none"]; in the whole returned tree
    the elements with [fill="#E6DAFE"] are exactly the children of the root
    (the one [path]), and the root is not one of them. *)
Theorem root_fill_none :
  forall (W : Type) (w : W) (args : list Value),
  exists e : Element,
    fst (run (ExpressRelayIcon args) w) = Return (VElement e) /\
    tag e = "svg" /\
    attr "fill" e = Some "none" /\
    attr_is "fill" "#E6DAFE" e = false /\
    filter (attr_is "fill" "#E6DAFE") (flatten e) = children e /\
    map tag (children e) = ["path"].
Proof.
  intros W w args. eexists.
  rewrite ExpressRelayIcon_run.
  split; [reflexivity |].
  split; [reflexivity |].
  split; [apply JsxFacts.attr_is_true_iff; reflexivity |].
  vm_compute. auto.
Qed.

(** C4.  Every call, whatever its arguments and whatever the store,
    completes with a returned value (it does not throw) and leaves the store
    exactly as it found it. *)
Theorem render_returns_normally :
  forall (W : Type) (w : W) (args : list Value),
    (exists v : Value, fst (run (ExpressRelayIcon args) w) = Return v) /\
    (forall x : Value, fst (run (ExpressRelayIcon args) w) <> Throw x) /\
    snd (run (ExpressRelayIcon args) w) = w.
Proof.
  intros W w args. rewrite ExpressRelayIcon_run. cbn [fst snd].
  split; [| split].
  - eexists. reflexivity.
  - intros x Hx. discriminate Hx.
  - reflexivity.
Qed.

(** C6.  The component takes no argument: a call with any arguments is the
    call with none, and what it returns is an element, neither [null] nor
    [undefined]. *)
Theorem render_zero_argument_interface :
  forall (W : Type) (w : W) (args : list Value),
    run (ExpressRelayIcon args) w = run (ExpressRelayIcon []) w /\
    exists v : Value,
      fst (run (ExpressRelayIcon []) w) = Return v /\
      is_nullish v = false /\
      v <> VNull /\ v <> VUndefined /\
      exists e : Element, as_element v = Some e.
Proof.
  intros W w args. rewrite !ExpressRelayIcon_run.
  split; [reflexivity |].
  exists (VElement svg_element). cbn.
  repeat split; try discriminate.
  exists svg_element. reflexivity.
Qed.

(** C3.  Any two calls, with any arguments and from any two stores, return
    equal values whose path data are the same string; two calls made in
    sequence return a pair of equal values and leave the store unchanged. *)
Theorem render_deterministic :
  forall (W : Type) (w1 w2 : W) (args1 args2 : list Value),
  exists (v1 v2 : Value) (d1 d2 : string),
    fst (run (ExpressRelayIcon args1) w1) = Return v1 /\
    fst (run (ExpressRelayIcon args2) w2) = Return v2 /\
    run (call_twice args1 args2) w1 = (Return (v1, v2), w1) /\
    path_data_of v1 = Some d1 /\
    path_data_of v2 = Some d2 /\
    d1 = d2 /\
    String.eqb d1 d2 = true /\
    v1 = v2.
Proof.
  intros W w1 w2 args1 args2.
  exists (VElement svg_element), (VElement svg_element), path_d, path_d.
  rewrite !ExpressRelayIcon_run. cbn [fst].
  split; [reflexivity |].
  split; [reflexivity |].
  split.
  - unfold call_twice.
    rewrite (run_bind_return _ _ w1 w1 (VElement svg_element)) by apply ExpressRelayIcon_run.
    rewrite (run_bind_return _ _ w1 w1 (VElement svg_element)) by apply ExpressRelayIcon_run.
    apply run_ret.
  - split; [reflexivity |].
    split; [reflexivity |].
    split; [reflexivity |].
    split; [apply String.eqb_refl | reflexivity].
Qed.

(** C7.  However many calls are made and with whatever arguments, in any
    order, each one returns the same fixed literal, and the store after the
    whole sequence is the store before it. *)
Theorem render_constant :
  forall (W : Type) (w : W) (calls : list (list Value)),
    run (call_each calls) w =
      (Return
         (map (fun _ =>
                 VElement
                   (El "svg"
                       [("width", "48"); ("height", "48");
                        ("viewBox", "0 0 48 48"); ("fill", "none");
                        ("xmlns", "http://www.w3.org/2000/svg")]
                       [El "path" [("d", path_d); ("fill", "#E6DAFE")] []]))
              calls),
       w).
Proof.
  intros W w calls. induction calls as [| args rest IH].
  - reflexivity.
  - cbn [map]. apply call_each_cons_run. exact IH.
Qed.

End ComponentFacts.

(** ** Path data *)

Module PathFacts.
Import Jsx Icon PathData Drawing.

Lemma within_spec (lo hi q : Q) :
  within lo hi q = true <-> (lo <= q /\ q <= hi)%Q.
Proof.
  unfold within. rewrite andb_true_iff, !Qle_bool_iff. reflexivity.
Qed.

Lemma all_within (lo hi : Q) (qs : list Q) :
  forallb (within lo hi) qs = true ->
  Forall (fun q => (lo <= q /\ q <= hi)%Q) qs.
Proof.
  induction qs as [| q qs IH]; intros Hall.
  - constructor.
  - cbn [forallb] in Hall. apply andb_true_iff in Hall as [Hq Hqs].
    constructor.
    + apply within_spec. exact Hq.
    + apply IH. exact Hqs.
Qed.

Lemma some_equal (target : Q) (qs : list Q) :
  existsb (fun q => Qeq_bool q target) qs = true ->
  Exists (fun q => (q == target)%Q) qs.
Proof.
  intros Hex. apply existsb_exists in Hex as [q [Hin Hq]].
  apply Exists_exists. exists q. split; [exact Hin |].
  apply Qeq_bool_iff. exact Hq.
Qed.

Lemma all_true {A} (f : A -> bool) (xs : list A) :
  forallb f xs = true -> Forall (fun x => f x = true) xs.
Proof.
  intros Hall. apply Forall_forall. apply forallb_forall. exact Hall.
Qed.

(** The subpaths of a command list are a partition of it, in order. *)
Lemma concat_subpaths (cs : list Command) : concat (subpaths cs) = cs.
Proof.
  induction cs as [| c rest IH].
  - reflexivity.
  - cbn [subpaths]. destruct (subpaths rest) as [| g gs] eqn:Hsub.
    + cbn in IH. subst rest. reflexivity.
    + destruct (is_close c || starts_with_move rest).
      * cbn [concat app]. rewrite <- IH. reflexivity.
      * cbn [concat] in *. rewrite <- IH. reflexivity.
Qed.

Lemma subpaths_nonempty (cs : list Command) :
  Forall (fun g => g <> []) (subpaths cs).
Proof.
  induction cs as [| c rest IH].
  - constructor.
  - cbn [subpaths]. destruct (subpaths rest) as [| g gs].
    + constructor; [discriminate | constructor].
    + destruct (is_close c || starts_with_move rest).
      * constructor; [discriminate | exact IH].
      * inversion IH; subst. constructor; [discriminate | assumption].
Qed.

(** The literal is well-formed path data. *)
Lemma parse_path_d : parse path_d = Some commands.
Proof. vm_compute. reflexivity. Qed.

(** C5.  The path data parses; each of its commands is a move, a line, a
    cubic curve or a close-path, the ones that are not a close-path being
    moves, lines and cubic curves only; and every subpath it draws begins
    with a move and ends with a close-path. *)
Theorem path_is_closed_outline :
  exists cs : list Command,
    parse path_d = Some cs /\
    Forall (fun c => is_drawing c = true \/ is_close c = true) cs /\
    Forall (fun c => is_drawing c = true) (filter (fun c => negb (is_close c)) cs) /\
    subpaths cs <> [] /\
    concat (subpaths cs) = cs /\
    Forall (fun g => starts_with_move g = true) (subpaths cs) /\
    Forall (fun g => is_closed g = true) (subpaths cs).
Proof.
  exists commands. split; [exact parse_path_d |].
  split.
  - apply Forall_forall. intros c Hc.
    assert (Hall : forallb (fun c => is_drawing c || is_close c) commands = true)
      by (vm_compute; reflexivity).
    rewrite forallb_forall in Hall. specialize (Hall c Hc).
    apply orb_true_iff. exact Hall.
  - split; [apply all_true; vm_compute; reflexivity |].
    split; [vm_compute; discriminate |].
    split; [apply concat_subpaths |].
    split; apply all_true; vm_compute; reflexivity.
Qed.

(** C9.  The path data has exactly four move commands and four subpaths;
    each subpath starts with [M] and ends with [Z]; and the letters that
    occur in the string are [M], [L], [C] and [Z] only, with four [M] and
    four [Z]. *)
Theorem path_has_four_closed_subpaths :
  exists cs : list Command,
    parse path_d = Some cs /\
    List.length (filter is_move cs) = 4%nat /\
    List.length (subpaths cs) = 4%nat /\
    map first_letter (subpaths cs) = repeat (Some "M"%char) 4 /\
    map last_letter (subpaths cs) = repeat (Some "Z"%char) 4 /\
    Forall (fun c => In (letter c) allowed_letters) cs /\
    Forall (fun c => In c allowed_letters) (letters path_d) /\
    count_occ ascii_dec (letters path_d) "M"%char = 4%nat /\
    count_occ ascii_dec (letters path_d) "Z"%char = 4%nat.
Proof.
  exists commands. split; [exact parse_path_d |].
  assert (Hallowed : forall c, is_allowed c = true -> In c allowed_letters).
  { intros c Hc. unfold is_allowed in Hc.
    apply existsb_exists in Hc as [x [Hin Hx]].
    apply Ascii.eqb_eq in Hx. subst x. exact Hin. }
  repeat match goal with |- _ /\ _ => split end;
    try (vm_compute; reflexivity).
  - apply Forall_forall. intros c Hc. apply Hallowed.
    assert (Hall : forallb (fun c => is_allowed (letter c)) commands = true)
      by (vm_compute; reflexivity).
    rewrite forallb_forall in Hall. exact (Hall c Hc).
  - apply Forall_forall. intros c Hc. apply Hallowed.
    assert (Hall : forallb is_allowed (letters path_d) = true)
      by (vm_compute; reflexivity).
    rewrite forallb_forall in Hall. exact (Hall c Hc).
Qed.

(** C10.  Every command of the path data is absolute and takes coordinates
    only; every coordinate lies between 0 and 48.01; some coordinate is
    48.01; and 48.01 is beyond 48, the far edge of the [viewBox] of the
    root element on both axes. *)
Theorem coordinates_range :
  exists (cs : list Command) (vb : ViewBox),
    parse path_d = Some cs /\
    view_box_of svg_element = Some vb /\
    Forall (fun c => is_absolute c = true) cs /\
    Forall (fun c => is_drawing c = true \/ operands c = []) cs /\
    Forall (fun q => (0 <= q /\ q <= 4801 # 100)%Q) (coordinates cs) /\
    Exists (fun q => (q == 4801 # 100)%Q) (coordinates cs) /\
    (max_x vb == 48)%Q /\
    (max_y vb == 48)%Q /\
    Exists (fun q => (max_x vb < q)%Q /\ (max_y vb < q)%Q) (coordinates cs).
Proof.
  exists commands, (mkViewBox 0 0 48 48).
  split; [exact parse_path_d |].
  split; [reflexivity |].
  split; [apply all_true; vm_compute; reflexivity |].
  split.
  { apply Forall_forall. intros c Hc.
    assert (Hall : forallb (fun c => is_drawing c || (List.length (operands c) =? 0)%nat)
                           commands = true)
      by (vm_compute; reflexivity).
    rewrite forallb_forall in Hall. specialize (Hall c Hc).
    apply orb_true_iff in Hall as [Hd | Hz]; [left; exact Hd | right].
    apply Nat.eqb_eq in Hz. destruct (operands c); [reflexivity | discriminate]. }
  split; [apply all_within; vm_compute; reflexivity |].
  assert (Hmax : Exists (fun q => (q == 4801 # 100)%Q) (coordinates commands))
    by (apply some_equal; vm_compute; reflexivity).
  split; [exact Hmax |].
  split; [reflexivity |].
  split; [reflexivity |].
  apply Exists_exists. apply Exists_exists in Hmax as [q [Hin Hq]].
  exists q. split; [exact Hin |].
  rewrite Hq. split; reflexivity.
Qed.

End PathFacts.

(** ** The Solidity functions *)

Module SolidityFacts.
Import Solidity.
Open Scope Z_scope.

Lemma int256_bounds :
  int256_min = - 2 ^ 255 /\ int256_max = 2 ^ 255 - 1 /\
  uint256_modulus = 2 * 2 ^ 255 /\ 0 < 2 ^ 255.
Proof. repeat split. Qed.

Lemma fits_int256_iff (z : Z) :
  fits_int256 z = true <-> int256_min <= z <= int256_max.
Proof.
  unfold fits_int256. rewrite andb_true_iff, !Z.leb_le. reflexivity.
Qed.

Lemma fits_int256_false_iff (z : Z) :
  fits_int256 z = false <-> z < int256_min \/ int256_max < z.
Proof.
  unfold fits_int256. rewrite andb_false_iff, !Z.leb_gt. reflexivity.
Qed.

Lemma wrap_int256_fits (z : Z) :
  int256_min <= z <= int256_max -> wrap_int256 z = z.
Proof.
  intros Hz. unfold wrap_int256.
  destruct int256_bounds as (Hmin & Hmax & Hmod & Hpos).
  rewrite Z.mod_small by lia. lia.
Qed.

Lemma int256_result_fits (mode : Arithmetic) (z : Z) :
  int256_min <= z <= int256_max -> int256_result mode z = Ok z.
Proof.
  intros Hz. unfold int256_result.
  apply fits_int256_iff in Hz. rewrite Hz. reflexivity.
Qed.

Lemma int256_result_checked_overflow (z : Z) :
  z < int256_min \/ int256_max < z -> int256_result Checked z = Revert Overflow.
Proof.
  intros Hz. unfold int256_result.
  apply fits_int256_false_iff in Hz. rewrite Hz. reflexivity.
Qed.

(** *** Bytes and numbers *)

Lemma byte_to_N_range (x : Byte.byte) : 0 <= Z.of_N (Byte.to_N x) <= 255.
Proof.
  pose proof (Byte.to_N_bounded x) as Hx. lia.
Qed.

Lemma byte_of_Z_value (z : Z) :
  0 <= z < 256 -> Z.of_N (Byte.to_N (byte_of_Z z)) = z.
Proof.
  intros Hz. unfold byte_of_Z.
  destruct (Byte.of_N (Z.to_N z)) as [x |] eqn:Hx.
  - apply Byte.to_of_N in Hx. rewrite Hx. lia.
  - apply Byte.of_N_None_iff in Hx. lia.
Qed.

Lemma big_endian_fold_from (b : bytes32) (acc : Z) :
  fold_left (fun a x => a * 256 + Z.of_N (Byte.to_N x)) b acc =
  acc * 256 ^ Z.of_nat (List.length b) + uint256_of_bytes32 b.
Proof.
  unfold uint256_of_bytes32. revert acc.
  induction b as [| x b IH]; intros acc.
  - cbn. lia.
  - cbn [fold_left List.length]. rewrite IH.
    rewrite (IH (0 * 256 + Z.of_N (Byte.to_N x))).
    rewrite Nat2Z.inj_succ, Z.pow_succ_r by lia. ring.
Qed.

Lemma uint256_of_bytes32_snoc (b : bytes32) (x : Byte.byte) :
  uint256_of_bytes32 (b ++ [x])%list = uint256_of_bytes32 b * 256 + Z.of_N (Byte.to_N x).
Proof.
  unfold uint256_of_bytes32. rewrite fold_left_app. reflexivity.
Qed.

Lemma uint256_of_bytes_range (b : bytes32) :
  0 <= uint256_of_bytes32 b < 256 ^ Z.of_nat (List.length b).
Proof.
  induction b as [| x b IH] using rev_ind.
  - cbn. lia.
  - rewrite uint256_of_bytes32_snoc, length_app. cbn [List.length].
    replace (Z.of_nat (List.length b + 1)) with (Z.succ (Z.of_nat (List.length b))) by lia.
    rewrite Z.pow_succ_r by lia.
    pose proof (byte_to_N_range x). lia.
Qed.

Lemma uint256_of_bytes32_range (b : bytes32) :
  well_formed b -> 0 <= uint256_of_bytes32 b < uint256_modulus.
Proof.
  intros Hb. pose proof (uint256_of_bytes_range b) as Hr.
  rewrite Hb in Hr. exact Hr.
Qed.

Lemma big_endian_length (n : nat) (z : Z) : List.length (big_endian n z) = n.
Proof.
  revert z. induction n as [| n IH]; intros z.
  - reflexivity.
  - cbn [big_endian]. rewrite length_app, IH. cbn. lia.
Qed.

Lemma big_endian_value (n : nat) (z : Z) :
  0 <= z < 256 ^ Z.of_nat n -> uint256_of_bytes32 (big_endian n z) = z.
Proof.
  revert z. induction n as [| n IH]; intros z Hz.
  - cbn in *. lia.
  - cbn [big_endian]. rewrite uint256_of_bytes32_snoc.
    rewrite Nat2Z.inj_succ, Z.pow_succ_r in Hz by lia.
    rewrite IH.
    + rewrite byte_of_Z_value by (apply Z.mod_pos_bound; lia).
      pose proof (Z.div_mod z 256). lia.
    + split.
      * apply Z.div_pos; lia.
      * apply Z.div_lt_upper_bound; lia.
Qed.

Lemma bytes32_of_uint256_well_formed (u : Z) : well_formed (bytes32_of_uint256 u).
Proof. apply big_endian_length. Qed.

(** Converting a [uint256] to [bytes32] and back gives the number again. *)
Lemma uint256_bytes32_round_trip (u : Z) :
  0 <= u < uint256_modulus ->
  uint256_of_bytes32 (bytes32_of_uint256 u) = u.
Proof.
  intros Hu. apply big_endian_value. exact Hu.
Qed.

(** *** [mapRandomNumber] *)

(** On a valid range the function computes
    [minRange + uint256(randomNumber) % (maxRange - minRange + 1)] with no
    conversion changing a value and no operation leaving its type. *)
Lemma mapRandomNumber_value (mode : Arithmetic) (b : bytes32) (lo hi : Z) :
  well_formed b -> valid_range lo hi ->
  mapRandomNumber mode b lo hi = Ok (lo + uint256_of_bytes32 b mod (hi - lo + 1)).
Proof.
  intros Hb (Hlo & Horder & Hhi & Hwidth).
  destruct int256_bounds as (Hmin & Hmax & Hmod & Hpos).
  pose proof (uint256_of_bytes32_range b Hb) as Hu.
  pose proof (Z.mod_pos_bound (uint256_of_bytes32 b) (hi - lo + 1) ltac:(lia)) as Hoff.
  unfold mapRandomNumber, int256_sub, int256_add.
  rewrite int256_result_fits by lia. cbn [and_then].
  rewrite int256_result_fits by lia. cbn [and_then].
  unfold uint256_of_int256. rewrite (Z.mod_small (hi - lo + 1)) by lia.
  unfold uint256_mod.
  destruct (Z.eqb_spec (hi - lo + 1) 0) as [Hzero | _]; [lia |].
  cbn [and_then]. unfold int256_of_uint256.
  rewrite wrap_int256_fits by lia.
  apply int256_result_fits. lia.
Qed.

(** X1.  On a valid range, whatever the random word and in either
    arithmetic mode, the call returns, and the value returned lies between
    [minRange] and [maxRange], both included. *)
Theorem mapRandomNumber_in_range (mode : Arithmetic) (b : bytes32) (lo hi : Z) :
  well_formed b -> valid_range lo hi ->
  exists r : Z, mapRandomNumber mode b lo hi = Ok r /\ lo <= r <= hi.
Proof.
  intros Hb Hrange. rewrite (mapRandomNumber_value mode b lo hi Hb Hrange).
  destruct Hrange as (_ & Horder & _ & _).
  pose proof (Z.mod_pos_bound (uint256_of_bytes32 b) (hi - lo + 1) ltac:(lia)) as Hoff.
  eexists. split; [reflexivity | lia].
Qed.

Lemma mapRandomNumber_in_range_witness :
  exists r : Z,
    mapRandomNumber Checked (bytes32_of_uint256 57) 1 52 = Ok r /\ 1 <= r <= 52.
Proof.
  apply (mapRandomNumber_in_range Checked (bytes32_of_uint256 57) 1 52).
  - reflexivity.
  - unfold valid_range. vm_compute. repeat split; discriminate.
Defined.

Lemma mapRandomNumber_reaches (mode : Arithmetic) (lo hi v : Z) :
  valid_range lo hi -> lo <= v <= hi ->
  mapRandomNumber mode (bytes32_of_uint256 (v - lo)) lo hi = Ok v.
Proof.
  intros Hrange Hv.
  rewrite (mapRandomNumber_value mode _ lo hi (bytes32_of_uint256_well_formed _) Hrange).
  destruct Hrange as (Hlo & Horder & Hhi & Hwidth).
  destruct int256_bounds as (Hmin & Hmax & Hmod & Hpos).
  rewrite uint256_bytes32_round_trip by lia.
  rewrite Z.mod_small by lia. f_equal. lia.
Qed.

(** X2.  On a valid range every value from [minRange] to [maxRange] is
    returned for some random word: both bounds are attained and no value
    in between is skipped. *)
Theorem mapRandomNumber_onto (mode : Arithmetic) (lo hi v : Z) :
  valid_range lo hi -> lo <= v <= hi ->
  exists b : bytes32, well_formed b /\ mapRandomNumber mode b lo hi = Ok v.
Proof.
  intros Hrange Hv. exists (bytes32_of_uint256 (v - lo)). split.
  - apply bytes32_of_uint256_well_formed.
  - apply mapRandomNumber_reaches; assumption.
Qed.

Lemma mapRandomNumber_onto_witness :
  exists b : bytes32, well_formed b /\ mapRandomNumber Wrapping b (-100) 100 = Ok 100.
Proof.
  apply (mapRandomNumber_onto Wrapping (-100) 100 100).
  - unfold valid_range. vm_compute. repeat split; discriminate.
  - lia.
Defined.

(** X3.  On a valid range of [m] values, the random words that give
    [minRange + r] are exactly the numbers [m * k + r] below 2^256: there
    are [2^256 / m] of them, and one more when [r < 2^256 mod m].  So the
    numbers of random words behind two values differ by at most one, the
    values nearest [minRange] being the favoured ones. *)
Theorem mapRandomNumber_preimage (mode : Arithmetic) (b : bytes32) (lo hi r : Z) :
  well_formed b -> valid_range lo hi -> 0 <= r < hi - lo + 1 ->
  (mapRandomNumber mode b lo hi = Ok (lo + r) <->
   exists k : Z,
     0 <= k < uint256_modulus / (hi - lo + 1)
              + (if r <? uint256_modulus mod (hi - lo + 1) then 1 else 0) /\
     uint256_of_bytes32 b = (hi - lo + 1) * k + r).
Proof.
  intros Hb Hrange Hr.
  rewrite (mapRandomNumber_value mode b lo hi Hb Hrange).
  pose proof (uint256_of_bytes32_range b Hb) as Hu.
  set (u := uint256_of_bytes32 b) in *.
  set (m := hi - lo + 1) in *.
  assert (Hm : 0 < m) by lia.
  pose proof (Z.div_mod uint256_modulus m ltac:(lia)) as HN.
  pose proof (Z.mod_pos_bound uint256_modulus m Hm) as HR.
  set (q := uint256_modulus / m) in *.
  set (rest := uint256_modulus mod m) in *.
  split.
  - intros Hout. injection Hout as Hout.
    assert (Hmod : u mod m = r) by lia.
    pose proof (Z.div_mod u m ltac:(lia)) as Hdm.
    exists (u / m). split; [| lia].
    split; [apply Z.div_pos; lia |].
    destruct (Z.ltb_spec r rest) as [Hlt | Hge]; nia.
  - intros (k & Hk & Hku). f_equal. f_equal.
    rewrite Hku. rewrite Z.add_comm, Z.mul_comm, Z_mod_plus_full.
    apply Z.mod_small. exact Hr.
Qed.

Lemma mapRandomNumber_preimage_witness :
  mapRandomNumber Checked (bytes32_of_uint256 56) 1 52 = Ok (1 + 4) <->
  exists k : Z,
    0 <= k < uint256_modulus / (52 - 1 + 1)
             + (if 4 <? uint256_modulus mod (52 - 1 + 1) then 1 else 0) /\
    uint256_of_bytes32 (bytes32_of_uint256 56) = (52 - 1 + 1) * k + 4.
Proof.
  apply (mapRandomNumber_preimage Checked (bytes32_of_uint256 56) 1 52 4).
  - reflexivity.
  - unfold valid_range. vm_compute. repeat split; discriminate.
  - lia.
Defined.

(** X4.  A range with no value, [maxRange = minRange - 1], makes the call
    fail on the modulo by zero, whatever the random word and in either
    arithmetic mode. *)
Theorem mapRandomNumber_empty_range (mode : Arithmetic) (b : bytes32) (lo : Z) :
  mapRandomNumber mode b lo (lo - 1) = Revert DivisionByZero.
Proof.
  unfold mapRandomNumber, int256_sub, int256_add.
  replace (lo - 1 - lo) with (-1) by lia.
  rewrite int256_result_fits by (vm_compute; split; discriminate).
  cbn [and_then].
  rewrite int256_result_fits by (vm_compute; split; discriminate).
  reflexivity.
Qed.

(** X5.  With checked arithmetic, bounds whose difference
    [maxRange - minRange] is 2^255 - 1 or more, or below -2^255, make the call
    revert with an overflow, whatever the random word: ranges of 2^255
    values or more are refused, and so are bounds in the wrong order that
    lie further apart than 2^255. *)
Theorem mapRandomNumber_checked_overflow (b : bytes32) (lo hi : Z) :
  int256_max <= hi - lo \/ hi - lo < int256_min ->
  mapRandomNumber Checked b lo hi = Revert Overflow.
Proof.
  intros Hwide.
  destruct int256_bounds as (Hmin & Hmax & Hmod & Hpos).
  unfold mapRandomNumber, int256_sub, int256_add.
  destruct (fits_int256 (hi - lo)) eqn:Hfit.
  - apply fits_int256_iff in Hfit.
    rewrite int256_result_fits by exact Hfit. cbn [and_then].
    rewrite int256_result_checked_overflow by lia. reflexivity.
  - unfold int256_result. rewrite Hfit. reflexivity.
Qed.

Lemma mapRandomNumber_checked_overflow_witness :
  mapRandomNumber Checked (bytes32_of_uint256 7) int256_min int256_max = Revert Overflow.
Proof.
  apply (mapRandomNumber_checked_overflow (bytes32_of_uint256 7) int256_min int256_max).
  left. vm_compute. discriminate.
Defined.

(** X6.  Bounds given in the wrong order are not rejected.  When
    [maxRange < minRange - 1] (and the difference is an [int256]), the
    modulus is above 2^255, so a random word below 2^255 is added to
    [minRange] as it is: the call returns [minRange + uint256(randomNumber)],
    which is not below [minRange] and so above [maxRange]. *)
Theorem mapRandomNumber_swapped_bounds (mode : Arithmetic) (b : bytes32) (lo hi : Z) :
  int256_min <= lo ->
  hi < lo - 1 -> int256_min <= hi - lo ->
  uint256_of_bytes32 b <= int256_max ->
  lo + uint256_of_bytes32 b <= int256_max ->
  mapRandomNumber mode b lo hi = Ok (lo + uint256_of_bytes32 b) /\
  hi < lo <= lo + uint256_of_bytes32 b.
Proof.
  intros Hlo Hswap Hdiff Hsmall Hsum.
  destruct int256_bounds as (Hmin & Hmax & Hmod & Hpos).
  pose proof (uint256_of_bytes_range b) as [Hu _].
  split; [| lia].
  unfold mapRandomNumber, int256_sub, int256_add.
  rewrite int256_result_fits by lia. cbn [and_then].
  rewrite int256_result_fits by lia. cbn [and_then].
  unfold uint256_of_int256.
  assert (Hrange : (hi - lo + 1) mod uint256_modulus = uint256_modulus + (hi - lo + 1)).
  { symmetry. apply (Z.mod_unique _ _ (-1)); lia. }
  rewrite Hrange. unfold uint256_mod.
  destruct (Z.eqb_spec (uint256_modulus + (hi - lo + 1)) 0) as [Hzero | _]; [lia |].
  cbn [and_then]. rewrite Z.mod_small by lia.
  unfold int256_of_uint256. rewrite wrap_int256_fits by lia.
  apply int256_result_fits. lia.
Qed.

Lemma mapRandomNumber_swapped_bounds_witness :
  mapRandomNumber Checked (bytes32_of_uint256 7) 10 5
    = Ok (10 + uint256_of_bytes32 (bytes32_of_uint256 7)) /\
  5 < 10 <= 10 + uint256_of_bytes32 (bytes32_of_uint256 7).
Proof.
  apply (mapRandomNumber_swapped_bounds Checked (bytes32_of_uint256 7) 10 5);
    vm_compute; first [reflexivity | discriminate].
Defined.

(** X7.  Whenever the call returns under checked arithmetic, it returns the
    same value under wrapping arithmetic: where the newer compilers do not
    revert, the compiler version does not change the result. *)
Theorem mapRandomNumber_checked_then_wrapping (b : bytes32) (lo hi r : Z) :
  mapRandomNumber Checked b lo hi = Ok r ->
  mapRandomNumber Wrapping b lo hi = Ok r.
Proof.
  unfold mapRandomNumber, int256_sub, int256_add, int256_result.
  destruct (fits_int256 (hi - lo)); [| discriminate].
  cbn [and_then].
  destruct (fits_int256 (hi - lo + 1)); [| discriminate].
  cbn [and_then].
  destruct (uint256_mod (uint256_of_bytes32 b) (uint256_of_int256 (hi - lo + 1)))
    as [offset | p]; [| discriminate].
  cbn [and_then].
  destruct (fits_int256 (lo + int256_of_uint256 offset)); [| discriminate].
  intros Hok. exact Hok.
Qed.

Lemma mapRandomNumber_checked_then_wrapping_witness :
  mapRandomNumber Wrapping (bytes32_of_uint256 57) 1 52 = Ok 6.
Proof.
  apply (mapRandomNumber_checked_then_wrapping (bytes32_of_uint256 57) 1 52 6).
  reflexivity.
Defined.

(** *** [generateAttributes] *)

Lemma valid_range_literals :
  valid_range 15 20 /\ valid_range 10 15 /\ valid_range 5 15 /\
  valid_range 0 5 /\ valid_range (-100) 100.
Proof.
  unfold valid_range. vm_compute. repeat split; discriminate.
Qed.

Lemma offset_in_range (u lo hi : Z) :
  lo <= hi -> lo <= lo + u mod (hi - lo + 1) <= hi.
Proof.
  intros Horder.
  pose proof (Z.mod_pos_bound u (hi - lo + 1) ltac:(lia)). lia.
Qed.

(** X8.  Whatever the random word and whatever 32-byte values the hash
    gives, [generateAttributes] runs to its end in either arithmetic mode,
    and there strength is in 15..20, stamina in 10..15, agility in 5..15,
    stealth in 0..5 and both positions in -100..100. *)
Theorem generateAttributes_in_ranges (mode : Arithmetic)
    (keccak256 : list Byte.byte -> bytes32) (b : bytes32) :
  (forall x, well_formed (keccak256 x)) ->
  exists a : Attributes,
    generateAttributes mode keccak256 b = Ok a /\
    15 <= strength a <= 20 /\
    10 <= stamina a <= 15 /\
    5 <= agility a <= 15 /\
    0 <= stealth a <= 5 /\
    -100 <= positionX a <= 100 /\
    -100 <= positionY a <= 100.
Proof.
  intros Hhash.
  destruct valid_range_literals as (R1 & R2 & R3 & R4 & R5).
  unfold generateAttributes.
  rewrite (mapRandomNumber_value mode _ 15 20 (Hhash _) R1). cbn [and_then].
  rewrite (mapRandomNumber_value mode _ 10 15 (Hhash _) R2). cbn [and_then].
  rewrite (mapRandomNumber_value mode _ 5 15 (Hhash _) R3). cbn [and_then].
  rewrite (mapRandomNumber_value mode _ 0 5 (Hhash _) R4). cbn [and_then].
  rewrite (mapRandomNumber_value mode _ (-100) 100 (Hhash _) R5). cbn [and_then].
  rewrite (mapRandomNumber_value mode _ (-100) 100 (Hhash _) R5). cbn [and_then].
  eexists. split; [reflexivity |].
  cbn [strength stamina agility stealth positionX positionY].
  repeat (split; [apply offset_in_range; lia |]).
  apply offset_in_range. lia.
Qed.

Lemma generateAttributes_in_ranges_witness :
  exists a : Attributes,
    generateAttributes Checked (fun _ => bytes32_of_uint256 0) [] = Ok a /\
    15 <= strength a <= 20 /\
    10 <= stamina a <= 15 /\
    5 <= agility a <= 15 /\
    0 <= stealth a <= 5 /\
    -100 <= positionX a <= 100 /\
    -100 <= positionY a <= 100.
Proof.
  apply (generateAttributes_in_ranges Checked (fun _ => bytes32_of_uint256 0) []).
  intros x. reflexivity.
Defined.

(** Packing the same random word with two different strings gives two
    different hash inputs. *)
Lemma abi_encodePacked_injective (b : bytes32) (s1 s2 : string) :
  abi_encodePacked b s1 = abi_encodePacked b s2 -> s1 = s2.
Proof.
  unfold abi_encodePacked. intros Heq. apply app_inv_head in Heq.
  rewrite <- (string_of_list_byte_of_string s1).
  rewrite <- (string_of_list_byte_of_string s2).
  rewrite Heq. reflexivity.
Qed.

Lemma attribute_labels_distinct : NoDup attribute_labels.
Proof.
  unfold attribute_labels.
  repeat (constructor; [cbn; intuition discriminate |]).
  constructor.
Qed.

Lemma NoDup_map_injective {A B} (f : A -> B) (l : list A) :
  (forall x y, f x = f y -> x = y) -> NoDup l -> NoDup (map f l).
Proof.
  intros Hinj Hl. induction Hl as [| x l Hfresh Hl IH].
  - constructor.
  - cbn [map]. constructor; [| exact IH].
    intros Hin. apply in_map_iff in Hin as (y & Hxy & Hy).
    apply Hinj in Hxy. subst y. contradiction.
Qed.

Lemma attribute_inputs_distinct (b : bytes32) :
  NoDup (map (abi_encodePacked b) attribute_labels).
Proof.
  apply NoDup_map_injective.
  - intros s1 s2. apply abi_encodePacked_injective.
  - apply attribute_labels_distinct.
Qed.

Lemma table_hash_well_formed (table : list (list Byte.byte * bytes32)) (x : list Byte.byte) :
  Forall (fun entry => well_formed (snd entry)) table ->
  well_formed (table_hash table x).
Proof.
  intros Hall. unfold table_hash.
  destruct (find _ table) as [entry |] eqn:Hfind.
  - apply find_some in Hfind as [Hin _].
    rewrite Forall_forall in Hall. apply Hall. exact Hin.
  - apply bytes32_of_uint256_well_formed.
Qed.

Lemma table_hash_lookup (table : list (list Byte.byte * bytes32))
      (k : list Byte.byte) (v : bytes32) :
  NoDup (map fst table) -> In (k, v) table -> table_hash table k = v.
Proof.
  unfold table_hash.
  induction table as [| [k' v'] rest IH]; intros Hnodup Hin.
  - destruct Hin.
  - cbn [find fst]. inversion Hnodup as [| ? ? Hfresh Hrest]; subst.
    destruct (list_eq_dec Byte.byte_eq_dec k k') as [Heq | Hne].
    + subst k'. destruct Hin as [Hhead | Htail].
      * injection Hhead as ->. reflexivity.
      * exfalso. apply Hfresh. apply (in_map fst) in Htail. exact Htail.
    + destruct Hin as [Hhead | Htail].
      * injection Hhead as -> ->. contradiction.
      * apply IH; assumption.
Qed.

(** X9.  The six draws do not constrain one another: for every random word
    and every choice of six values within the six ranges, there is a hash
    function with 32-byte values for which [generateAttributes] ends with
    exactly those values.  It holds because the six packed hash inputs are
    pairwise different. *)
Theorem generateAttributes_independent (mode : Arithmetic) (b : bytes32) (a : Attributes) :
  15 <= strength a <= 20 ->
  10 <= stamina a <= 15 ->
  5 <= agility a <= 15 ->
  0 <= stealth a <= 5 ->
  -100 <= positionX a <= 100 ->
  -100 <= positionY a <= 100 ->
  exists keccak256 : list Byte.byte -> bytes32,
    (forall x, well_formed (keccak256 x)) /\
    generateAttributes mode keccak256 b = Ok a.
Proof.
  intros B1 B2 B3 B4 B5 B6.
  destruct valid_range_literals as (R1 & R2 & R3 & R4 & R5).
  set (values := [bytes32_of_uint256 (strength a - 15);
                  bytes32_of_uint256 (stamina a - 10);
                  bytes32_of_uint256 (agility a - 5);
                  bytes32_of_uint256 (stealth a - 0);
                  bytes32_of_uint256 (positionX a - -100);
                  bytes32_of_uint256 (positionY a - -100)]).
  set (table := combine (map (abi_encodePacked b) attribute_labels) values).
  assert (Hkeys : NoDup (map fst table)).
  { exact (attribute_inputs_distinct b). }
  assert (Hlook : forall k v, In (k, v) table -> table_hash table k = v).
  { intros k v. apply table_hash_lookup. exact Hkeys. }
  exists (table_hash table). split.
  - intros x. apply table_hash_well_formed.
    unfold table, values. cbn [attribute_labels map combine].
    repeat (constructor; [apply bytes32_of_uint256_well_formed |]).
    constructor.
  - unfold generateAttributes.
    rewrite (Hlook _ (bytes32_of_uint256 (strength a - 15))) by (cbn; tauto).
    rewrite (Hlook _ (bytes32_of_uint256 (stamina a - 10))) by (cbn; tauto).
    rewrite (Hlook _ (bytes32_of_uint256 (agility a - 5))) by (cbn; tauto).
    rewrite (Hlook _ (bytes32_of_uint256 (stealth a - 0))) by (cbn; tauto).
    rewrite (Hlook _ (bytes32_of_uint256 (positionX a - -100))) by (cbn; tauto).
    rewrite (Hlook _ (bytes32_of_uint256 (positionY a - -100))) by (cbn; tauto).
    rewrite !mapRandomNumber_reaches by assumption.
    cbn [and_then]. destruct a. reflexivity.
Qed.

Lemma generateAttributes_independent_witness :
  exists keccak256 : list Byte.byte -> bytes32,
    (forall x, well_formed (keccak256 x)) /\
    generateAttributes Checked keccak256 (bytes32_of_uint256 1)
      = Ok (mkAttributes 20 10 5 0 (-100) 100).
Proof.
  apply (generateAttributes_independent Checked (bytes32_of_uint256 1)
           (mkAttributes 20 10 5 0 (-100) 100)); cbn; lia.
Defined.

(** *** Wrapping arithmetic *)

Lemma wrap_int256_range (z : Z) : int256_min <= wrap_int256 z <= int256_max.
Proof.
  destruct int256_bounds as (Hmin & Hmax & Hmod & Hpos).
  unfold wrap_int256.
  pose proof (Z.mod_pos_bound (z - int256_min) uint256_modulus ltac:(lia)). lia.
Qed.

Lemma wrap_int256_congruent (z : Z) :
  wrap_int256 z mod uint256_modulus = z mod uint256_modulus.
Proof.
  unfold wrap_int256. rewrite Z.add_mod_idemp_l by (vm_compute; discriminate).
  f_equal. lia.
Qed.

Lemma wrap_int256_unique (z r : Z) :
  int256_min <= r <= int256_max ->
  r mod uint256_modulus = z mod uint256_modulus ->
  wrap_int256 z = r.
Proof.
  intros Hr Hcongr.
  destruct int256_bounds as (Hmin & Hmax & Hmod & Hpos).
  unfold wrap_int256.
  assert (Hshift : (z - int256_min) mod uint256_modulus = r - int256_min).
  { rewrite <- (Z.mod_small (r - int256_min) uint256_modulus) by lia.
    rewrite <- (Zminus_mod_idemp_l z), <- (Zminus_mod_idemp_l r).
    rewrite Hcongr. reflexivity. }
  lia.
Qed.

Lemma int256_result_wrapping (z : Z) :
  int256_result Wrapping z = Ok (wrap_int256 z).
Proof.
  unfold int256_result. destruct (fits_int256 z) eqn:Hfit; [| reflexivity].
  apply fits_int256_iff in Hfit. rewrite wrap_int256_fits by exact Hfit.
  reflexivity.
Qed.

(** X10.  With wrapping arithmetic the function serves every range of
    [int256] bounds in order except the whole type: also where
    [maxRange - minRange + 1] is 2^255 or more, and the intermediate
    results wrap, the value returned is
    [minRange + uint256(randomNumber) % (maxRange - minRange + 1)] and lies
    between the bounds. *)
Theorem mapRandomNumber_wrapping_wide (b : bytes32) (lo hi : Z) :
  well_formed b ->
  int256_min <= lo -> lo <= hi -> hi <= int256_max ->
  hi - lo + 1 < uint256_modulus ->
  mapRandomNumber Wrapping b lo hi
    = Ok (lo + uint256_of_bytes32 b mod (hi - lo + 1)) /\
  lo <= lo + uint256_of_bytes32 b mod (hi - lo + 1) <= hi.
Proof.
  intros Hb Hlo Horder Hhi Hcount.
  destruct int256_bounds as (Hmin & Hmax & Hmod & Hpos).
  pose proof (Z.mod_pos_bound (uint256_of_bytes32 b) (hi - lo + 1) ltac:(lia)) as Hoff.
  split; [| lia].
  unfold mapRandomNumber, int256_sub, int256_add.
  rewrite int256_result_wrapping. cbn [and_then].
  rewrite int256_result_wrapping. cbn [and_then].
  assert (Hrange : uint256_of_int256 (wrap_int256 (wrap_int256 (hi - lo) + 1)) = hi - lo + 1).
  { unfold uint256_of_int256. rewrite wrap_int256_congruent.
    rewrite <- Z.add_mod_idemp_l by lia.
    rewrite wrap_int256_congruent.
    rewrite Z.add_mod_idemp_l by lia.
    apply Z.mod_small. lia. }
  rewrite Hrange. unfold uint256_mod.
  destruct (Z.eqb_spec (hi - lo + 1) 0) as [Hzero | _]; [lia |].
  cbn [and_then]. rewrite int256_result_wrapping. f_equal.
  apply wrap_int256_unique; [lia |].
  unfold int256_of_uint256.
  rewrite <- (Z.add_mod_idemp_r lo (wrap_int256 _)) by lia.
  rewrite wrap_int256_congruent.
  rewrite Z.add_mod_idemp_r by lia. reflexivity.
Qed.

Lemma mapRandomNumber_wrapping_wide_witness :
  mapRandomNumber Wrapping (bytes32_of_uint256 5) int256_min (int256_max - 1)
    = Ok (int256_min
          + uint256_of_bytes32 (bytes32_of_uint256 5) mod (int256_max - 1 - int256_min + 1)) /\
  int256_min
    <= int256_min
       + uint256_of_bytes32 (bytes32_of_uint256 5) mod (int256_max - 1 - int256_min + 1)
    <= int256_max - 1.
Proof.
  apply (mapRandomNumber_wrapping_wide (bytes32_of_uint256 5) int256_min (int256_max - 1));
    vm_compute; first [reflexivity | discriminate].
Defined.

(** X11.  The whole [int256] range cannot be asked for: with
    [minRange = -2^255] and [maxRange = 2^255 - 1] the call fails for every
    random word, on the overflow of the subtraction with checked arithmetic,
    on the modulo by zero with wrapping arithmetic. *)
Theorem mapRandomNumber_whole_type_fails (b : bytes32) :
  mapRandomNumber Checked b int256_min int256_max = Revert Overflow /\
  mapRandomNumber Wrapping b int256_min int256_max = Revert DivisionByZero.
Proof.
  split.
  - unfold mapRandomNumber, int256_sub.
    replace (int256_result Checked (int256_max - int256_min))
      with (@Revert Z Overflow) by (vm_compute; reflexivity).
    reflexivity.
  - unfold mapRandomNumber, int256_sub, int256_add.
    rewrite int256_result_wrapping. cbn [and_then].
    rewrite int256_result_wrapping. cbn [and_then].
    replace (uint256_of_int256 (wrap_int256 (wrap_int256 (int256_max - int256_min) + 1)))
      with 0 by (vm_compute; reflexivity).
    reflexivity.
Qed.

End SolidityFacts.
